(** * minitorch scalar functions: the dispatch layer and the operation catalogue

    A shallow embedding of [minitorch/scalar_functions.py] together with the
    parts of [minitorch.autodiff], [minitorch.scalar] and [minitorch.operators]
    it relies on.  Python floats are IEEE 754 binary64 numbers and are
    embedded as Rocq's primitive floats, so that every operation can be
    evaluated on concrete inputs. *)

From Stdlib Require Import Floats ZArith QArith Lia.
From stdpp Require Import base option list sorting gmap.

(** ** Python values and exceptions *)

(** The objects that can flow out of a [forward] or a [backward] method:
    the dispatch layer inspects them with [isinstance]. *)
#[warnings="-register-all"]
Inductive value : Type :=
| VFloat (x : float)
| VInt (n : Z)
| VTuple (xs : list value).

(** The exceptions the modelled code can raise.  In the specification's
    taxonomy the failed [assert] of [apply] is a ContractViolation and the
    failed unpacking of [ctx.saved_values] is MissingSavedData.
    [ArityMismatch] is the specification's name for the defect the backward
    engine surfaces when a backward result does not have one entry per
    operand.  [InvalidNode] is not a Python exception: it marks a node
    identifier the arena does not hold, a state no Python program
    reaches. *)
Inductive exn : Type :=
| TypeError
| ValueError
| AssertionError
| ZeroDivisionError
| OverflowError
| ArityMismatch
| InvalidNode.

Inductive result (A : Type) : Type :=
| Ok (a : A)
| Raise (e : exn).
Arguments Ok {A} a.
Arguments Raise {A} e.

#[export] Instance result_ret : MRet result := @Ok.
#[export] Instance result_bind : MBind result := fun A B f m =>
  match m with
  | Ok a => f a
  | Raise e => Raise e
  end.

(** [isinstance(x, float)] and [isinstance(x, tuple)]. *)
Definition isinstance_float (x : value) : bool :=
  match x with VFloat _ => true | _ => false end.

Definition isinstance_tuple (x : value) : bool :=
  match x with VTuple _ => true | _ => false end.

(** [len(t)] of a tuple object. *)
Definition tuple_len (x : value) : option nat :=
  match x with VTuple xs => Some (length xs) | _ => None end.

(** ** Context *)

(** Modelled from the spec: [minitorch.autodiff.Context] is not part of the
    sources at hand.  It holds a flag and the ordered sequence of saved
    values; [save_for_backward] overwrites the saved sequence and does
    nothing when gradient tracking is off; a context on which nothing was
    saved has the empty sequence.  The constructor's positional argument is
    the switch that turns tracking off, so gradient tracking is active
    exactly when [no_grad] is [false]. *)
Record Context : Type := {
  no_grad : bool;
  saved_values : list float
}.

Definition Context_new (no_grad : bool) : Context :=
  {| no_grad := no_grad; saved_values := [] |}.

Definition tracking (ctx : Context) : bool := negb (no_grad ctx).

Definition save_for_backward (ctx : Context) (values : list float) : Context :=
  if no_grad ctx then ctx
  else {| no_grad := no_grad ctx; saved_values := values |}.

(** ** Numeric primitives *)

(** The transcendental primitives of [minitorch.operators] and their
    derivative helpers are not part of the sources at hand and are taken as
    parameters.  They may raise (a math domain error, a division by zero, an
    overflow). *)
Class Operators : Type := {
  op_log : float → result float;
  op_log_back : float → float → result float;
  op_inv : float → result float;
  op_inv_back : float → float → result float;
  op_sigmoid : float → result float;
  op_exp : float → result float
}.

Module operators.

(** Modelled from the spec: [operators.mul], the product of two raw
    numbers. *)
Definition mul (x y : float) : float := (x * y)%float.

(** Modelled from the spec: [operators.neg], the negation of a raw
    number. *)
Definition neg (x : float) : float := (- x)%float.

(** Modelled from the spec: [operators.relu], max(0, x): [x] when it is
    greater than zero and 0.0 otherwise. *)
Definition relu (x : float) : float :=
  if (0 <? x)%float then x else 0%float.

(** Modelled from the spec: [operators.relu_back], [d] when [x] is greater
    than zero and 0.0 otherwise. *)
Definition relu_back (x d : float) : float :=
  if (0 <? x)%float then d else 0%float.

(** Modelled from the spec: the comparisons [operators.gt], [operators.lt]
    and [operators.eq], 1.0 when the comparison holds and 0.0 otherwise. *)
Definition gt (x y : float) : float :=
  if (y <? x)%float then 1%float else 0%float.

Definition lt (x y : float) : float :=
  if (x <? y)%float then 1%float else 0%float.

Definition eq (x y : float) : float :=
  if (x =? y)%float then 1%float else 0%float.

Definition log `{Operators} := op_log.
Definition log_back `{Operators} := op_log_back.
Definition inv `{Operators} := op_inv.
Definition inv_back `{Operators} := op_inv_back.
Definition sigmoid `{Operators} := op_sigmoid.
Definition exp `{Operators} := op_exp.

End operators.

(** [float(x)] applied to a float. *)
Definition py_float (x : float) : float := x.

(** ** The dispatch layer *)

(** Turn a possible value into a tuple. *)
Definition wrap_tuple (x : value) : value :=
  if isinstance_tuple x then x else VTuple [x].

(** A subclass of [ScalarFunction]: its static methods [forward] and
    [backward].  [forward] receives the context and the raw operands and
    returns its result together with the context as it left it; calling it
    with the wrong number of operands raises [TypeError]. *)
Record ScalarFunction : Type := {
  forward : Context → list float → result (value * Context);
  backward : Context → float → result value
}.

Module Add.
Definition forward (ctx : Context) (inps : list float) : result (value * Context) :=
  match inps with
  | [a; b] => Ok (VFloat (a + b)%float, ctx)
  | _ => Raise TypeError
  end.

Definition backward (ctx : Context) (d_output : float) : result value :=
  Ok (VTuple [VFloat d_output; VFloat d_output]).

Definition cls : ScalarFunction := Build_ScalarFunction forward backward.
End Add.

Module Log.
Definition forward `{Operators} (ctx : Context) (inps : list float)
  : result (value * Context) :=
  match inps with
  | [a] =>
      let ctx := save_for_backward ctx [a] in
      r ← operators.log a; Ok (VFloat r, ctx)
  | _ => Raise TypeError
  end.

Definition backward `{Operators} (ctx : Context) (d_output : float) : result value :=
  match saved_values ctx with
  | [a] => r ← operators.log_back a d_output; Ok (VFloat r)
  | _ => Raise ValueError
  end.

Definition cls `{Operators} : ScalarFunction := Build_ScalarFunction forward backward.
End Log.

Module Mul.
Definition forward (ctx : Context) (inps : list float) : result (value * Context) :=
  match inps with
  | [a; b] =>
      let ctx := save_for_backward ctx [a; b] in
      Ok (VFloat (operators.mul a b), ctx)
  | _ => Raise TypeError
  end.

Definition backward (ctx : Context) (d_output : float) : result value :=
  match saved_values ctx with
  | [a; b] => Ok (VTuple [VFloat (b * d_output)%float; VFloat (a * d_output)%float])
  | _ => Raise ValueError
  end.

Definition cls : ScalarFunction := Build_ScalarFunction forward backward.
End Mul.

Module Inv.
Definition forward `{Operators} (ctx : Context) (inps : list float)
  : result (value * Context) :=
  match inps with
  | [a] =>
      let ctx := save_for_backward ctx [a] in
      r ← operators.inv a; Ok (VFloat r, ctx)
  | _ => Raise TypeError
  end.

Definition backward `{Operators} (ctx : Context) (d_output : float) : result value :=
  match saved_values ctx with
  | [a] => r ← operators.inv_back a d_output; Ok (VFloat r)
  | _ => Raise ValueError
  end.

Definition cls `{Operators} : ScalarFunction := Build_ScalarFunction forward backward.
End Inv.

Module Neg.
Definition forward (ctx : Context) (inps : list float) : result (value * Context) :=
  match inps with
  | [a] =>
      let ctx := save_for_backward ctx [a] in
      Ok (VFloat (operators.neg a), ctx)
  | _ => Raise TypeError
  end.

Definition backward (ctx : Context) (d_output : float) : result value :=
  match saved_values ctx with
  | [a] => Ok (VFloat (-1.0 * d_output)%float)
  | _ => Raise ValueError
  end.

Definition cls : ScalarFunction := Build_ScalarFunction forward backward.
End Neg.

Module Sigmoid.
Definition forward `{Operators} (ctx : Context) (inps : list float)
  : result (value * Context) :=
  match inps with
  | [a] =>
      let ctx := save_for_backward ctx [a] in
      r ← operators.sigmoid a; Ok (VFloat r, ctx)
  | _ => Raise TypeError
  end.

Definition backward `{Operators} (ctx : Context) (d_output : float) : result value :=
  match saved_values ctx with
  | [a] =>
      s1 ← operators.sigmoid a;
      s2 ← operators.sigmoid a;
      Ok (VFloat (s1 * (1 - s2) * d_output)%float)
  | _ => Raise ValueError
  end.

Definition cls `{Operators} : ScalarFunction := Build_ScalarFunction forward backward.
End Sigmoid.

Module ReLU.
Definition forward (ctx : Context) (inps : list float) : result (value * Context) :=
  match inps with
  | [a] =>
      let ctx := save_for_backward ctx [a] in
      Ok (VFloat (operators.relu a), ctx)
  | _ => Raise TypeError
  end.

Definition backward (ctx : Context) (d_output : float) : result value :=
  match saved_values ctx with
  | [a] => Ok (VFloat (operators.relu_back a d_output))
  | _ => Raise ValueError
  end.

Definition cls : ScalarFunction := Build_ScalarFunction forward backward.
End ReLU.

Module Exp.
Definition forward `{Operators} (ctx : Context) (inps : list float)
  : result (value * Context) :=
  match inps with
  | [a] =>
      let ctx := save_for_backward ctx [a] in
      r ← operators.exp a; Ok (VFloat r, ctx)
  | _ => Raise TypeError
  end.

Definition backward `{Operators} (ctx : Context) (d_output : float) : result value :=
  match saved_values ctx with
  | [a] => r ← operators.exp a; Ok (VFloat (r * d_output)%float)
  | _ => Raise ValueError
  end.

Definition cls `{Operators} : ScalarFunction := Build_ScalarFunction forward backward.
End Exp.

Module GT.
Definition forward (ctx : Context) (inps : list float) : result (value * Context) :=
  match inps with
  | [a; b] =>
      let ctx := save_for_backward ctx [a; b] in
      Ok (VFloat (py_float (operators.gt a b)), ctx)
  | _ => Raise TypeError
  end.

Definition backward (ctx : Context) (d_output : float) : result value :=
  Ok (VTuple [VFloat 0; VFloat 0]).

Definition cls : ScalarFunction := Build_ScalarFunction forward backward.
End GT.

Module LT.
Definition forward (ctx : Context) (inps : list float) : result (value * Context) :=
  match inps with
  | [a; b] =>
      let ctx := save_for_backward ctx [a; b] in
      Ok (VFloat (py_float (operators.lt a b)), ctx)
  | _ => Raise TypeError
  end.

Definition backward (ctx : Context) (d_output : float) : result value :=
  Ok (VTuple [VFloat 0; VFloat 0]).

Definition cls : ScalarFunction := Build_ScalarFunction forward backward.
End LT.

Module EQ.
Definition forward (ctx : Context) (inps : list float) : result (value * Context) :=
  match inps with
  | [a; b] =>
      let ctx := save_for_backward ctx [a; b] in
      Ok (VFloat (py_float (operators.eq a b)), ctx)
  | _ => Raise TypeError
  end.

Definition backward (ctx : Context) (d_output : float) : result value :=
  Ok (VTuple [VFloat 0; VFloat 0]).

Definition cls : ScalarFunction := Build_ScalarFunction forward backward.
End EQ.

(** The operation catalogue. *)
Definition catalogue `{Operators} : list ScalarFunction :=
  [Add.cls; Log.cls; Mul.cls; Inv.cls; Neg.cls; Sigmoid.cls; ReLU.cls;
   Exp.cls; GT.cls; LT.cls; EQ.cls].

(** The operations whose backward rule reads the saved values. *)
Definition saved_readers `{Operators} : list ScalarFunction :=
  [Log.cls; Mul.cls; Inv.cls; Neg.cls; Sigmoid.cls; ReLU.cls; Exp.cls].

(** ** Computation nodes *)

(** Modelled from the spec: [minitorch.scalar.ScalarHistory] is not part of
    the sources at hand.  A history records the operation that produced a
    node, the context of that call and the operand nodes in call order.
    Nodes are shared objects: a history refers to its operands by their
    identifiers. *)
Record ScalarHistory : Type := {
  last_fn : ScalarFunction;
  fn_ctx : Context;
  inputs : list nat
}.

(** Modelled from the spec: [minitorch.scalar.Scalar] is not part of the
    sources at hand.  A node has an identifier assigned at construction, a
    raw payload, an optional history (absent for a leaf) and a gradient
    accumulator that starts unset. *)
Record Scalar : Type := {
  unique_id : nat;
  data : float;
  history : option ScalarHistory;
  derivative : option float
}.

(** The process-wide state: the identifier counter and the nodes built so
    far, by identifier. *)
Record world : Type := {
  var_count : nat;
  arena : gmap nat Scalar
}.

Definition empty_world : world := {| var_count := 0; arena := ∅ |}.

(** Modelled from the spec: the constructor of [Scalar].  It draws the next
    identifier from the counter and registers the new node. *)
Definition new_Scalar (v : float) (back : option ScalarHistory) (w : world)
  : nat * world :=
  let id := S (var_count w) in
  (id, {| var_count := id;
          arena := <[id := {| unique_id := id; data := v;
                              history := back; derivative := None |}]> (arena w) |}).

(** An argument of [apply]: a raw number (a float, as the operations are
    annotated) or an existing node, referred to by its identifier.  A raw
    Python int, which [apply] would hand to [forward] as it is, is outside
    this model: everything below is about float operands. *)
Inductive ScalarLike : Type :=
| Raw (v : float)
| Node (id : nat).

Module ScalarFunction.

Definition _backward (cls : ScalarFunction) (ctx : Context) (d_out : float)
  : result value :=
  x ← backward cls ctx d_out; Ok (wrap_tuple x).

Definition _forward (cls : ScalarFunction) (ctx : Context) (inps : list float)
  : result (value * Context) :=
  forward cls ctx inps.

(** The loop of [apply] over its arguments, from the values of [raw_vals]
    and [scalars] reached so far. *)
Fixpoint unpack (vals : list ScalarLike) (raw_vals : list float)
    (scalars : list nat) (w : world) : result (list float * list nat) * world :=
  match vals with
  | [] => (Ok (raw_vals, scalars), w)
  | Node id :: vals' =>
      match arena w !! id with
      | Some v => unpack vals' (raw_vals ++ [data v]) (scalars ++ [id]) w
      | None => (Raise InvalidNode, w)
      end
  | Raw v :: vals' =>
      let '(id, w') := new_Scalar v None w in
      unpack vals' (raw_vals ++ [v]) (scalars ++ [id]) w'
  end.

Definition apply (cls : ScalarFunction) (vals : list ScalarLike) (w : world)
  : result nat * world :=
  match unpack vals [] [] w with
  | (Raise e, w) => (Raise e, w)
  | (Ok (raw_vals, scalars), w) =>
      (* Create the context. *)
      let ctx := Context_new false in
      (* Call forward with the variables. *)
      match _forward cls ctx raw_vals with
      | Raise e => (Raise e, w)
      | Ok (c, ctx) =>
          match c with
          | VFloat c =>
              (* Create a new variable from the result with a new history. *)
              let back := {| last_fn := cls; fn_ctx := ctx; inputs := scalars |} in
              let '(id, w) := new_Scalar c (Some back) w in
              (Ok id, w)
          | _ => (Raise AssertionError, w)
          end
      end
  end.

End ScalarFunction.

(** ** The backward engine *)

Module autodiff.

(** Modelled from the spec: the backward engine ([minitorch.autodiff]) is
    not part of the sources at hand.  Discovery collects every node
    reachable from the root through the operand links of the histories,
    each once.  No path is longer than the root's identifier, as operands
    are built before the nodes that use them. *)
Fixpoint reach (fuel : nat) (w : world) (id : nat) : gset nat :=
  match fuel with
  | 0 => ∅
  | S fuel' =>
      match arena w !! id with
      | None => ∅
      | Some v =>
          match history v with
          | None => {[ id ]}
          | Some h => {[ id ]} ∪ ⋃ (reach fuel' w <$> inputs h)
          end
      end
  end.

Definition discover (w : world) (root : nat) : gset nat :=
  reach (S root) w root.

(** Modelled from the spec: the discovered nodes by descending
    identifier. *)
Definition ordering (w : world) (root : nat) : list nat :=
  merge_sort (flip (≤)) (elements (discover w root)).

(** Modelled from the spec: adding a derivative into a leaf's accumulator;
    an unset accumulator counts as zero. *)
Definition accumulate_derivative (v : Scalar) (d : float) : Scalar :=
  {| unique_id := unique_id v; data := data v; history := history v;
     derivative := Some (default 0%float (derivative v) + d)%float |}.

(** Modelled from the spec: adding a local derivative into a node's entry
    of the gradient buffer; an absent entry counts as zero. *)
Definition add_entry (buffer : gmap nat float) (entry : nat * float)
  : gmap nat float :=
  <[entry.1 := (default 0%float (buffer !! entry.1) + entry.2)%float]> buffer.

(** The local derivatives in a normalized backward result: floats, as
    [_backward] is annotated. *)
Fixpoint floats (xs : list value) : result (list float) :=
  match xs with
  | [] => Ok []
  | VFloat x :: xs' => l ← floats xs'; Ok (x :: l)
  | _ :: _ => Raise TypeError
  end.

Definition local_derivatives (t : value) : result (list float) :=
  match t with
  | VTuple xs => floats xs
  | _ => Raise TypeError
  end.

(** Modelled from the spec: the local derivatives of a computed node, one
    per operand, paired with the operands of its history in call order.  A
    backward result with another number of entries than the node has
    operands is a defect, surfaced at once. *)
Definition chain_rule (h : ScalarHistory) (d_output : float)
  : result (list (nat * float)) :=
  t ← ScalarFunction._backward (last_fn h) (fn_ctx h) d_output;
  ds ← local_derivatives t;
  if decide (length ds = length (inputs h)) then Ok (zip (inputs h) ds)
  else Raise ArityMismatch.

(** Modelled from the spec: one step of the propagation, for the node
    [id]. *)
Definition process (id : nat) (buffer : gmap nat float) (w : world)
  : result (gmap nat float) * world :=
  match buffer !! id with
  | None => (Ok buffer, w)
  | Some d =>
      let buffer := delete id buffer in
      match arena w !! id with
      | None => (Raise InvalidNode, w)
      | Some v =>
          match history v with
          | None =>
              (Ok buffer,
               {| var_count := var_count w;
                  arena := <[id := accumulate_derivative v d]> (arena w) |})
          | Some h =>
              match chain_rule h d with
              | Raise e => (Raise e, w)
              | Ok entries => (Ok (foldl add_entry buffer entries), w)
              end
          end
      end
  end.

Fixpoint propagate (order : list nat) (buffer : gmap nat float) (w : world)
  : result unit * world :=
  match order with
  | [] => (Ok (), w)
  | id :: order' =>
      match process id buffer w with
      | (Raise e, w) => (Raise e, w)
      | (Ok buffer, w) => propagate order' buffer w
      end
  end.

(** Modelled from the spec: the backward pass from [root] with the seed
    derivative [deriv]. *)
Definition backpropagate (root : nat) (deriv : float) (w : world)
  : result unit * world :=
  propagate (ordering w root) {[ root := deriv ]} w.

End autodiff.

(** The accumulated gradient of a node, when the node exists and its
    accumulator is set. *)
Definition grad (w : world) (id : nat) : option float :=
  v ← arena w !! id; derivative v.

(** ** Well-formed worlds *)

(** Every node sits at its own identifier, identifiers were drawn from the
    counter, and the operands of a node exist and were built before it. *)
Definition wf (w : world) : Prop :=
  ∀ id v, arena w !! id = Some v →
    id ≤ var_count w ∧ unique_id v = id ∧
    ∀ h, history v = Some h →
      Forall (λ p, p < id ∧ is_Some (arena w !! p)) (inputs h).

(** The raw numeric value of an argument of [apply]. *)
Definition raw_of (w : world) (v : ScalarLike) : option float :=
  match v with
  | Raw x => Some x
  | Node id => data <$> arena w !! id
  end.

(** A fresh leaf: a node without history whose accumulator is unset. *)
Definition leaf (id : nat) (x : float) : Scalar :=
  {| unique_id := id; data := x; history := None; derivative := None |}.

(** The number of raw numbers among the arguments of [apply]. *)
Fixpoint count_raw (vals : list ScalarLike) : nat :=
  match vals with
  | [] => 0
  | Raw _ :: vals' => S (count_raw vals')
  | Node _ :: vals' => count_raw vals'
  end.

(** The operand nodes of a call of [apply] made when the counter stands at
    [n]: an existing node stands for itself, a raw number receives the next
    identifier. *)
Fixpoint operand_ids (n : nat) (vals : list ScalarLike) : list nat :=
  match vals with
  | [] => []
  | Node id :: vals' => id :: operand_ids n vals'
  | Raw _ :: vals' => S n :: operand_ids (S n) vals'
  end.

(** The operand [s] that stands for the argument [v] once [apply] took the
    world from [w] to [w']: the node itself, or a leaf that did not exist
    before and wraps the raw number. *)
Definition operand (w w' : world) (v : ScalarLike) (s : nat) : Prop :=
  match v with
  | Node id => s = id
  | Raw x => arena w !! s = None ∧ arena w' !! s = Some (leaf s x)
  end.

(** The arity contract of the backward dispatch for one operation: once
    [forward] returned on the operands [inps], [_backward] on the context it
    left does not return a tuple of another length than [inps]. *)
Definition arity_contract (cls : ScalarFunction) : Prop :=
  ∀ ctx inps c ctx' d_out t,
    forward cls ctx inps = Ok (c, ctx') →
    ScalarFunction._backward cls ctx' d_out = Ok t →
    tuple_len t = Some (length inps).

(** The history of a node of the world, when it has one. *)
Definition history_of (w : world) (id : nat) : option ScalarHistory :=
  arena w !! id ≫= history.


(** Every history of the world holds a context with gradient tracking on. *)
Definition tracked (w : world) : Prop :=
  ∀ id h, history_of w id = Some h → tracking (fn_ctx h) = true.

(** The operations whose forward saves its operands. *)
Definition savers `{Operators} : list ScalarFunction :=
  [Log.cls; Mul.cls; Inv.cls; Neg.cls; Sigmoid.cls; ReLU.cls; Exp.cls;
   GT.cls; LT.cls; EQ.cls].

(** ** Reachability and fan-in *)






(** ** Graphs over one leaf and their true derivative *)




(** The number a finite float stands for. *)
Definition exact (x : float) : option Q :=
  match Prim2SF x with
  | S754_zero _ => Some 0%Q
  | S754_finite s m e =>
      Some ((if s then -1 else 1) * inject_Z (Z.pos m) * Qpower 2 e)%Q
  | _ => None
  end.




(** ** Operations that break a contract of the dispatch layer *)

Module Faulty.

(** An operation whose [forward] returns a Python int. *)
Definition int_forward : ScalarFunction :=
  {| forward := λ ctx inps, Ok (VInt 1, ctx);
     backward := λ ctx d_output, Ok (VFloat d_output) |}.

(** An operation whose [forward] returns a pair. *)
Definition pair_forward : ScalarFunction :=
  {| forward := λ ctx inps, Ok (VTuple [VFloat 1; VFloat 2], ctx);
     backward := λ ctx d_output, Ok (VFloat d_output) |}.

(** An operation of two operands whose [backward] returns a single
    derivative. *)
Definition lopsided : ScalarFunction :=
  {| forward := λ ctx inps,
       match inps with
       | [a; b] => Ok (VFloat (a + b)%float, ctx)
       | _ => Raise TypeError
       end;
     backward := λ ctx d_output, Ok (VFloat d_output) |}.

End Faulty.

(** An environment in which every transcendental primitive raises; the rest
    of the catalogue does not depend on it. *)
Definition no_transcendentals : Operators :=
  {| op_log := λ _, Raise ValueError;
     op_log_back := λ _ _, Raise ValueError;
     op_inv := λ _, Raise ValueError;
     op_inv_back := λ _ _, Raise ValueError;
     op_sigmoid := λ _, Raise ValueError;
     op_exp := λ _, Raise ValueError |}.

(** ** Tables read off the catalogue *)

(** The number of operands in the signature of each [forward]. *)
Definition arities `{Operators} : list (ScalarFunction * nat) :=
  [(Add.cls, 2); (Log.cls, 1); (Mul.cls, 2); (Inv.cls, 1); (Neg.cls, 1);
   (Sigmoid.cls, 1); (ReLU.cls, 1); (Exp.cls, 1); (GT.cls, 2); (LT.cls, 2);
   (EQ.cls, 2)].

(** The number of names into which each reading [backward] unpacks the saved
    values. *)
Definition saved_counts `{Operators} : list (ScalarFunction * nat) :=
  [(Log.cls, 1); (Mul.cls, 2); (Inv.cls, 1); (Neg.cls, 1); (Sigmoid.cls, 1);
   (ReLU.cls, 1); (Exp.cls, 1)].

(** The operations that call none of the primitives taken as parameters. *)
Definition primitive_free : list ScalarFunction :=
  [Add.cls; Mul.cls; Neg.cls; ReLU.cls; GT.cls; LT.cls; EQ.cls].

(** What a call of [forward] hands back to its caller, the context left
    aside: its value or the exception it raised. *)
Definition outcome (r : result (value * Context)) : result value :=
  match r with
  | Ok (c, _) => Ok c
  | Raise e => Raise e
  end.

(** An environment in which every primitive returns its first argument. *)
Definition echo_primitives : Operators :=
  {| op_log := λ x, Ok x;
     op_log_back := λ x _, Ok x;
     op_inv := λ x, Ok x;
     op_inv_back := λ x _, Ok x;
     op_sigmoid := λ x, Ok x;
     op_exp := λ x, Ok x |}.

(** * Properties *)

(** ** Worlds and node construction *)

Lemma wf_empty : wf empty_world.
Proof. intros id v Hv. simpl in Hv. by rewrite lookup_empty in Hv. Qed.

Lemma wf_fresh w id : wf w → var_count w < id → arena w !! id = None.
Proof.
  intros Hwf Hlt. destruct (arena w !! id) as [v|] eqn:Hv; [|done].
  apply Hwf in Hv as [Hle _]. lia.
Qed.

Lemma new_Scalar_lookup v back w :
  arena (new_Scalar v back w).2 !! (new_Scalar v back w).1
  = Some {| unique_id := S (var_count w); data := v;
            history := back; derivative := None |}.
Proof. simpl. by rewrite lookup_insert_eq. Qed.

Lemma new_Scalar_preserves v back w id n :
  wf w → arena w !! id = Some n → arena (new_Scalar v back w).2 !! id = Some n.
Proof.
  intros Hwf Hid. simpl. rewrite lookup_insert_ne; [done|].
  apply Hwf in Hid as [Hle _]. lia.
Qed.

Lemma new_Scalar_wf v back w :
  wf w →
  (∀ h, back = Some h → Forall (λ p, is_Some (arena w !! p)) (inputs h)) →
  wf (new_Scalar v back w).2.
Proof.
  intros Hwf Hback id n. simpl.
  destruct (decide (id = S (var_count w))) as [->|Hne].
  - rewrite lookup_insert_eq. intros [= <-]. simpl.
    split; [lia|]. split; [done|].
    intros h Hh. specialize (Hback h Hh).
    eapply Forall_impl; [exact Hback|]. simpl.
    intros p [m Hm]. split.
    + apply Hwf in Hm as [Hle _]. lia.
    + rewrite lookup_insert_ne; [eauto|].
      apply Hwf in Hm as [Hle _]. lia.
  - rewrite lookup_insert_ne by done. intros Hn.
    destruct (Hwf id n Hn) as (Hle & Hid & Hops).
    split; [lia|]. split; [done|].
    intros h Hh. eapply Forall_impl; [exact (Hops h Hh)|]. simpl.
    intros p [Hlt [m Hm]]. split; [done|].
    rewrite lookup_insert_ne; [eauto|].
    apply Hwf in Hm as [Hle' _]. lia.
Qed.

(** ** Argument handling of [apply] *)

Lemma raw_of_preserved w w' v x :
  (∀ i n, arena w !! i = Some n → arena w' !! i = Some n) →
  raw_of w v = Some x → raw_of w' v = Some x.
Proof.
  intros Hsub. destruct v as [y|id]; simpl; [done|].
  destruct (arena w !! id) as [n|] eqn:Hn; [|done].
  by rewrite (Hsub _ _ Hn).
Qed.

Lemma unpack_spec vals : ∀ raws raw0 sc0 w,
  wf w →
  Forall2 (λ v x, raw_of w v = Some x) vals raws →
  ∃ w1,
    ScalarFunction.unpack vals raw0 sc0 w
    = (Ok (raw0 ++ raws, sc0 ++ operand_ids (var_count w) vals), w1) ∧
    wf w1 ∧
    var_count w1 = var_count w + count_raw vals ∧
    (∀ i n, arena w !! i = Some n → arena w1 !! i = Some n) ∧
    (∀ i n, arena w1 !! i = Some n →
       arena w !! i = Some n ∨ (arena w !! i = None ∧ ∃ x, n = leaf i x)) ∧
    size (arena w1) = size (arena w) + count_raw vals ∧
    Forall2 (operand w w1) vals (operand_ids (var_count w) vals).
Proof.
  induction vals as [|v vals IH]; intros raws raw0 sc0 w Hwf Hraws.
  - apply Forall2_nil_inv_l in Hraws as ->. exists w. simpl.
    rewrite !app_nil_r. split; [done|]. split; [done|]. split; [lia|].
    split; [auto|]. split; [auto|]. split; [lia|]. constructor.
  - apply Forall2_cons_inv_l in Hraws as (x & raws' & Hx & Hraws' & ->).
    destruct v as [y|id]; simpl in Hx |- *.
    + injection Hx as ->.
      set (w' := (new_Scalar x None w).2).
      assert (Hwf' : wf w') by (apply new_Scalar_wf; [done|discriminate]).
      assert (Hsub : ∀ i n, arena w !! i = Some n → arena w' !! i = Some n)
        by (intros i n Hi; by apply new_Scalar_preserves).
      assert (Hnew : arena w !! S (var_count w) = None)
        by (apply wf_fresh; [done|lia]).
      destruct (IH raws' (raw0 ++ [x]) (sc0 ++ [S (var_count w)]) w' Hwf')
        as (w1 & Hun & Hwf1 & Hcnt & Hsub1 & Honly & Hsize & Hops).
      { eapply Forall2_impl; [exact Hraws'|]. simpl.
        intros v z Hz. by eapply raw_of_preserved. }
      exists w1. rewrite <- !app_assoc in Hun. simpl in Hun.
      split; [exact Hun|]. split; [done|].
      split; [rewrite Hcnt; simpl; lia|].
      split; [auto|].
      split.
      { intros i n Hi. destruct (Honly i n Hi) as [Hi'|[Hi' Hleaf]].
        - simpl in Hi'. destruct (decide (i = S (var_count w))) as [->|Hne].
          + rewrite lookup_insert_eq in Hi'. injection Hi' as <-.
            right. split; [done|]. by exists x.
          + rewrite lookup_insert_ne in Hi' by done. by left.
        - right. split; [|done].
          destruct (arena w !! i) as [m|] eqn:Hm; [|done].
          pose proof (Hsub _ _ Hm) as Hm'. congruence. }
      split.
      { rewrite Hsize. simpl. rewrite map_size_insert_None by done. lia. }
      constructor.
      * simpl. split; [done|]. apply Hsub1. simpl. by rewrite lookup_insert_eq.
      * eapply Forall2_impl; [exact Hops|]. simpl.
        intros [z|i] s; unfold operand; [|done].
        intros [Hnone Hsome]. split; [|done].
        destruct (arena w !! s) as [m|] eqn:Hm; [|done].
        pose proof (Hsub _ _ Hm) as Hm'. congruence.
    + destruct (arena w !! id) as [n|] eqn:Hn; [|done].
      simpl in Hx. injection Hx as <-.
      destruct (IH raws' (raw0 ++ [data n]) (sc0 ++ [id]) w Hwf Hraws')
        as (w1 & Hun & Hwf1 & Hcnt & Hsub1 & Honly & Hsize & Hops).
      exists w1. rewrite <- !app_assoc in Hun. simpl in Hun.
      split; [exact Hun|]. do 5 (split; [done|]).
      constructor; [|done]. simpl. done.
Qed.

Lemma operands_exist w w1 vals raws scalars :
  (∀ i n, arena w !! i = Some n → arena w1 !! i = Some n) →
  Forall2 (λ v x, raw_of w v = Some x) vals raws →
  Forall2 (operand w w1) vals scalars →
  Forall (λ p, is_Some (arena w1 !! p)) scalars.
Proof.
  intros Hsub Hraws Hops. revert raws Hraws.
  induction Hops as [|v s vals' scalars' Hv _ IH]; intros raws Hraws;
    [constructor|].
  apply Forall2_cons_inv_l in Hraws as (x & raws' & Hx & Hraws' & ->).
  constructor; [|by eapply IH].
  destruct v as [y|i]; simpl in Hv, Hx.
  - destruct Hv as [_ Hv]. eauto.
  - subst s. destruct (arena w !! i) as [n|] eqn:Hn; [|done]. eauto.
Qed.

(** ** The forward-result contract *)

(** C3: for every operation, when [forward] returns anything but a float,
    [apply] raises the assertion error and the world holds nothing more than
    the leaves that wrap the raw arguments: no node was built from the
    result.  An int and a pair are such results. *)
Theorem forward_result_contract :
  (∀ cls vals w raw_vals c ctx,
     wf w →
     Forall2 (λ v x, raw_of w v = Some x) vals raw_vals →
     forward cls (Context_new false) raw_vals = Ok (c, ctx) →
     isinstance_float c = false →
     ∃ w1,
       ScalarFunction.apply cls vals w = (Raise AssertionError, w1) ∧
       var_count w1 = var_count w + count_raw vals ∧
       size (arena w1) = size (arena w) + count_raw vals ∧
       ∀ i n, arena w1 !! i = Some n →
         arena w !! i = Some n ∨ ∃ x, n = leaf i x) ∧
  (ScalarFunction.apply Faulty.int_forward [Raw 1%float] empty_world).1
    = Raise AssertionError ∧
  (ScalarFunction.apply Faulty.pair_forward [Raw 1%float] empty_world).1
    = Raise AssertionError.
Proof.
  split; [|split; reflexivity].
  intros cls vals w raw_vals c ctx Hwf Hraws Hfwd Hc.
  destruct (unpack_spec vals raw_vals [] [] w Hwf Hraws)
    as (w1 & Hun & _ & Hcnt & _ & Honly & Hsize & _).
  exists w1. unfold ScalarFunction.apply, ScalarFunction._forward.
  rewrite Hun. simpl. rewrite Hfwd.
  split; [by destruct c|]. split; [done|]. split; [done|].
  intros i n Hi. destruct (Honly i n Hi) as [?|[_ ?]]; auto.
Qed.

Lemma forward_result_contract_witness :
  ∃ w1,
    ScalarFunction.apply Faulty.int_forward [Raw 1%float] empty_world
    = (Raise AssertionError, w1) ∧
    var_count w1 = var_count empty_world + count_raw [Raw 1%float] ∧
    size (arena w1) = size (arena empty_world) + count_raw [Raw 1%float] ∧
    ∀ i n, arena w1 !! i = Some n →
      arena empty_world !! i = Some n ∨ ∃ x, n = leaf i x.
Proof.
  apply (proj1 forward_result_contract Faulty.int_forward [Raw 1%float]
           empty_world [1%float] (VInt 1) (Context_new false)).
  - apply wf_empty.
  - repeat constructor.
  - reflexivity.
  - reflexivity.
Defined.

(** ** Argument handling and node construction *)

(** C5: in a well-formed world, for arguments that are raw numbers or
    existing nodes, [apply] calls [forward] on a fresh context with the raw
    values of the arguments in call order; when that call returns the float
    [c] and leaves the context [ctx], [apply] returns a node that did not
    exist before, holds [c] and carries the history made of the operation,
    [ctx] and the operand nodes in call order.  Each existing node is its
    own operand, each raw number is wrapped in a leaf of its own that did
    not exist before; nothing else is added and no existing node changes. *)
Theorem apply_builds_node cls vals w raw_vals c ctx :
  wf w →
  Forall2 (λ v x, raw_of w v = Some x) vals raw_vals →
  forward cls (Context_new false) raw_vals = Ok (VFloat c, ctx) →
  ∃ id scalars w',
    ScalarFunction.apply cls vals w = (Ok id, w') ∧
    arena w !! id = None ∧
    arena w' !! id
    = Some {| unique_id := id; data := c;
              history := Some {| last_fn := cls; fn_ctx := ctx; inputs := scalars |};
              derivative := None |} ∧
    Forall2 (operand w w') vals scalars ∧
    (id ∉ scalars) ∧
    size (arena w') = size (arena w) + count_raw vals + 1 ∧
    (∀ i n, arena w !! i = Some n → arena w' !! i = Some n) ∧
    wf w'.
Proof.
  intros Hwf Hraws Hfwd.
  destruct (unpack_spec vals raw_vals [] [] w Hwf Hraws)
    as (w1 & Hun & Hwf1 & Hcnt & Hsub & Honly & Hsize & Hops).
  simpl in Hun.
  set (scalars := operand_ids (var_count w) vals) in *.
  set (back := {| last_fn := cls; fn_ctx := ctx; inputs := scalars |}).
  assert (Hexist : Forall (λ p, is_Some (arena w1 !! p)) scalars)
    by (by eapply operands_exist).
  assert (Hfresh : arena w1 !! S (var_count w1) = None)
    by (apply wf_fresh; [done|lia]).
  exists (S (var_count w1)), scalars, (new_Scalar c (Some back) w1).2.
  split.
  { unfold ScalarFunction.apply, ScalarFunction._forward.
    rewrite Hun. simpl. by rewrite Hfwd. }
  split.
  { destruct (arena w !! S (var_count w1)) as [n|] eqn:Hn; [|done].
    pose proof (Hsub _ _ Hn). congruence. }
  split; [apply new_Scalar_lookup|].
  split.
  { eapply Forall2_impl; [exact Hops|].
    intros [x|i] s; unfold operand; [|done].
    intros [Hnone Hsome]. split; [done|]. by apply new_Scalar_preserves. }
  split.
  { intros Hin. rewrite Forall_forall in Hexist.
    destruct (Hexist _ Hin) as [n Hn]. congruence. }
  split.
  { simpl. rewrite map_size_insert_None by done. lia. }
  split.
  { intros i n Hi. apply new_Scalar_preserves; auto. }
  apply new_Scalar_wf; [done|]. intros h [= <-]. exact Hexist.
Qed.

Lemma apply_builds_node_witness :
  ∃ id scalars w',
    ScalarFunction.apply Mul.cls [Raw 2%float; Node 1]
      (new_Scalar 3%float None empty_world).2 = (Ok id, w') ∧
    arena (new_Scalar 3%float None empty_world).2 !! id = None ∧
    arena w' !! id
    = Some {| unique_id := id; data := 6%float;
              history := Some {| last_fn := Mul.cls;
                                 fn_ctx := {| no_grad := false;
                                              saved_values := [2%float; 3%float] |};
                                 inputs := scalars |};
              derivative := None |} ∧
    Forall2 (operand (new_Scalar 3%float None empty_world).2 w')
      [Raw 2%float; Node 1] scalars ∧
    (id ∉ scalars) ∧
    size (arena w')
    = size (arena (new_Scalar 3%float None empty_world).2)
      + count_raw [Raw 2%float; Node 1] + 1 ∧
    (∀ i n, arena (new_Scalar 3%float None empty_world).2 !! i = Some n →
            arena w' !! i = Some n) ∧
    wf w'.
Proof.
  apply (apply_builds_node Mul.cls [Raw 2%float; Node 1]
           (new_Scalar 3%float None empty_world).2 [2%float; 3%float]).
  - apply new_Scalar_wf; [apply wf_empty|discriminate].
  - repeat constructor.
  - reflexivity.
Defined.

(** ** Normalization of backward results *)

(** C10: [wrap_tuple] returns its argument when it is a tuple and the
    one-element tuple holding it otherwise; it is idempotent, and
    [ScalarFunction._backward] returns a tuple whenever the operation's
    [backward] returns (it raises exactly when [backward] raises), for every
    operation, context and output derivative. *)
Theorem wrap_tuple_normalizes :
  (∀ x, wrap_tuple x = match x with VTuple _ => x | _ => VTuple [x] end) ∧
  (∀ x, isinstance_tuple (wrap_tuple x) = true) ∧
  (∀ x, wrap_tuple (wrap_tuple x) = wrap_tuple x) ∧
  (∀ cls ctx d_out,
     match ScalarFunction._backward cls ctx d_out with
     | Ok t => isinstance_tuple t = true ∧
               ∃ x, backward cls ctx d_out = Ok x ∧ t = wrap_tuple x
     | Raise e => backward cls ctx d_out = Raise e
     end).
Proof.
  repeat split.
  - intros [x|n|xs]; reflexivity.
  - intros [x|n|xs]; reflexivity.
  - intros [x|n|xs]; reflexivity.
  - intros cls ctx d_out. unfold ScalarFunction._backward.
    destruct (backward cls ctx d_out) as [x|e]; simpl; [|reflexivity].
    split; [destruct x; reflexivity | eauto].
Qed.

(** ** The multiplication rule *)

(** C2: [Mul.forward] returns the product of its operands and saves them in
    call order; [Mul.backward] on the saved pair [(a, b)] returns
    [(b * d, a * d)]; for the leaves 2.0 and 3.0 the product node has value
    6.0 and the backward pass with seed 1.0 leaves the gradients 3.0 and
    2.0; for leaves of any values [u] and [v] and any seed [d] it leaves
    [v * d] and [u * d], each added to an empty entry and to an unset
    accumulator. *)
Theorem Mul_forward_backward :
  (∀ ctx a b,
     Mul.forward ctx [a; b] = Ok (VFloat (a * b)%float, save_for_backward ctx [a; b])) ∧
  (∀ a b,
     Mul.forward (Context_new false) [a; b]
     = Ok (VFloat (a * b)%float, {| no_grad := false; saved_values := [a; b] |})) ∧
  (∀ ng a b d,
     Mul.backward {| no_grad := ng; saved_values := [a; b] |} d
     = Ok (VTuple [VFloat (b * d)%float; VFloat (a * d)%float])) ∧
  (let '(a, w1) := new_Scalar 2%float None empty_world in
   let '(b, w2) := new_Scalar 3%float None w1 in
   ∃ c w3 w4,
     ScalarFunction.apply Mul.cls [Node a; Node b] w2 = (Ok c, w3) ∧
     data <$> arena w3 !! c = Some 6%float ∧
     autodiff.backpropagate c 1%float w3 = (Ok (), w4) ∧
     grad w4 a = Some 3%float ∧
     grad w4 b = Some 2%float) ∧
  (∀ u v d,
     let '(a, w1) := new_Scalar u None empty_world in
     let '(b, w2) := new_Scalar v None w1 in
     ∃ c w3 w4,
       ScalarFunction.apply Mul.cls [Node a; Node b] w2 = (Ok c, w3) ∧
       data <$> arena w3 !! c = Some (u * v)%float ∧
       autodiff.backpropagate c d w3 = (Ok (), w4) ∧
       grad w4 a = Some (0 + (0 + v * d))%float ∧
       grad w4 b = Some (0 + (0 + u * d))%float).
Proof.
  split; [reflexivity|]. split; [reflexivity|]. split; [reflexivity|].
  split.
  - simpl. eexists _, _, _.
    split; [reflexivity|].
    split; [vm_compute; reflexivity|].
    split; [vm_compute; reflexivity|].
    split; vm_compute; reflexivity.
  - intros u v d. simpl. eexists _, _, _.
    split; [reflexivity|].
    split; [vm_compute; reflexivity|].
    split; [vm_compute; reflexivity|].
    split; vm_compute; reflexivity.
Qed.

(** ** Comparisons *)

(** C6: the forward of [GT], [LT] and [EQ] returns 1.0 when the comparison
    of its operands holds and 0.0 otherwise, and their backward returns the
    pair [(0.0, 0.0)] for every context and every output derivative, also
    through [_backward]. *)
Theorem comparisons_stop_gradient :
  (∀ ctx a b,
     GT.forward ctx [a; b]
     = Ok (VFloat (if (b <? a)%float then 1 else 0)%float, save_for_backward ctx [a; b]) ∧
     LT.forward ctx [a; b]
     = Ok (VFloat (if (a <? b)%float then 1 else 0)%float, save_for_backward ctx [a; b]) ∧
     EQ.forward ctx [a; b]
     = Ok (VFloat (if (a =? b)%float then 1 else 0)%float, save_for_backward ctx [a; b])) ∧
  (∀ ctx d,
     GT.backward ctx d = Ok (VTuple [VFloat 0; VFloat 0]) ∧
     LT.backward ctx d = Ok (VTuple [VFloat 0; VFloat 0]) ∧
     EQ.backward ctx d = Ok (VTuple [VFloat 0; VFloat 0])) ∧
  (∀ ctx d,
     Forall (λ cls, ScalarFunction._backward cls ctx d = Ok (VTuple [VFloat 0; VFloat 0]))
       [GT.cls; LT.cls; EQ.cls]).
Proof.
  split; [|split].
  - intros ctx a b. repeat split.
  - intros ctx d. repeat split.
  - intros ctx d. repeat constructor.
Qed.

(** ** The rectifier *)

(** C9: [ReLU.forward] returns its operand when it is greater than zero and
    0.0 otherwise, and saves the operand; [ReLU.backward] returns the output
    derivative when the saved operand is greater than zero and 0.0
    otherwise.  At -1.0 the forward value is 0.0 and the derivative 0.0; at
    1.0 the forward value is 1.0 and the derivative is the seed. *)
Theorem ReLU_boundary :
  (∀ ctx a,
     ReLU.forward ctx [a]
     = Ok (VFloat (if (0 <? a)%float then a else 0)%float, save_for_backward ctx [a])) ∧
  (∀ ng a d,
     ReLU.backward {| no_grad := ng; saved_values := [a] |} d
     = Ok (VFloat (if (0 <? a)%float then d else 0)%float)) ∧
  (∃ ctx,
     ReLU.forward (Context_new false) [(-1)%float] = Ok (VFloat 0, ctx) ∧
     ∀ d, ReLU.backward ctx d = Ok (VFloat 0)) ∧
  (∃ ctx,
     ReLU.forward (Context_new false) [1%float] = Ok (VFloat 1, ctx) ∧
     ∀ d, ReLU.backward ctx d = Ok (VFloat d)).
Proof.
  split; [|split; [|split]].
  - reflexivity.
  - reflexivity.
  - eexists. split; [reflexivity|]. reflexivity.
  - eexists. split; [reflexivity|]. reflexivity.
Qed.

(** ** Backward without saved values *)

(** C7: a context on which nothing was saved holds the empty sequence, and
    on such a context the backward rule of every operation that reads the
    saved values ([Log], [Mul], [Inv], [Neg], [Sigmoid], [ReLU], [Exp])
    raises the unpacking error at once, whatever the output derivative; so
    does [_backward]. *)
Theorem backward_without_saved_values `{Operators} :
  (∀ ng, saved_values (Context_new ng) = []) ∧
  Forall (λ cls, ∀ ng d,
            backward cls {| no_grad := ng; saved_values := [] |} d = Raise ValueError ∧
            ScalarFunction._backward cls {| no_grad := ng; saved_values := [] |} d
            = Raise ValueError)
    saved_readers.
Proof.
  split; [reflexivity|]. repeat constructor.
Qed.

(** ** The backward dispatch and the number of operands *)

(** Case analysis on a call of a catalogue [forward] or [backward]. *)
Ltac crunch_call :=
  repeat match goal with
         | H : Ok _ = Ok _ |- _ => injection H as ?; subst
         | H : Raise _ = Ok _ |- _ => discriminate H
         | H : context [match ?x with _ => _ end] |- _ =>
             destruct x eqn:?; simpl in H
         | H : context [mbind _ ?x] |- _ => destruct x eqn:?; simpl in H
         end.

Lemma catalogue_arity `{Operators} : Forall arity_contract catalogue.
Proof.
  unfold catalogue.
  repeat (apply Forall_cons_2); [..|apply Forall_nil_2];
    unfold arity_contract;
    intros ctx inps c ctx' d_out t Hf Hb;
    unfold ScalarFunction._backward in Hb; simpl in Hf, Hb;
    unfold Add.forward, Add.backward, Log.forward, Log.backward,
      Mul.forward, Mul.backward, Inv.forward, Inv.backward,
      Neg.forward, Neg.backward, Sigmoid.forward, Sigmoid.backward,
      ReLU.forward, ReLU.backward, Exp.forward, Exp.backward,
      GT.forward, GT.backward, LT.forward, LT.backward,
      EQ.forward, EQ.backward in Hf, Hb;
    crunch_call; reflexivity.
Qed.

(** C4, as stated: every operation honours the arity contract at the
    backward dispatch.  It fails for an operation of two operands whose
    [backward] returns a single derivative: [_backward] hands back a
    one-element tuple and raises nothing. *)
Lemma backward_dispatch_arity_unchecked :
  forward Faulty.lopsided (Context_new false) [1%float; 2%float]
  = Ok (VFloat 3, Context_new false) ∧
  ScalarFunction._backward Faulty.lopsided (Context_new false) 1%float
  = Ok (VTuple [VFloat 1]) ∧
  ¬ (∀ cls, arity_contract cls).
Proof.
  split; [reflexivity|]. split; [reflexivity|].
  intros Hall.
  specialize (Hall Faulty.lopsided (Context_new false) [1%float; 2%float]
                (VFloat 3) (Context_new false) 1%float (VTuple [VFloat 1])
                eq_refl eq_refl).
  discriminate Hall.
Qed.

(** C4, amended: [_backward] returns the operation's backward result
    normalized by [wrap_tuple] and raises only what [backward] raises; it
    does not compare the length of the tuple with the number of operands.
    For the operations of the catalogue the tuple has one entry per operand
    of the forward call. *)
Theorem backward_dispatch_normalizes :
  (∀ cls ctx d_out,
     ScalarFunction._backward cls ctx d_out
     = match backward cls ctx d_out with
       | Ok x => Ok (wrap_tuple x)
       | Raise e => Raise e
       end) ∧
  (∀ O : Operators, Forall arity_contract (@catalogue O)).
Proof.
  split; [reflexivity|]. intros O. apply catalogue_arity.
Qed.

Lemma backward_dispatch_normalizes_witness :
  tuple_len (VTuple [VFloat (3 * 1)%float; VFloat (2 * 1)%float])
  = Some (length [2%float; 3%float]).
Proof.
  pose proof (proj2 backward_dispatch_normalizes no_transcendentals) as Hall.
  rewrite Forall_lookup in Hall.
  apply (Hall 2 Mul.cls eq_refl (Context_new false) [2%float; 3%float]
           (VFloat (2 * 3)%float)
           {| no_grad := false; saved_values := [2%float; 3%float] |} 1%float).
  - reflexivity.
  - reflexivity.
Defined.

(** ** Gradient tracking *)

Lemma new_Scalar_tracked v back w :
  tracked w →
  (∀ h, back = Some h → tracking (fn_ctx h) = true) →
  tracked (new_Scalar v back w).2.
Proof.
  intros Hw Hback id h. unfold history_of. simpl.
  destruct (decide (id = S (var_count w))) as [->|Hne].
  - rewrite lookup_insert_eq. simpl. auto.
  - rewrite lookup_insert_ne by done. apply Hw.
Qed.

Lemma unpack_tracked vals : ∀ raw0 sc0 w r w1,
  tracked w → ScalarFunction.unpack vals raw0 sc0 w = (r, w1) → tracked w1.
Proof.
  induction vals as [|[x|id] vals IH]; intros raw0 sc0 w r w1 Hw Hun;
    simpl in Hun.
  - by injection Hun as _ <-.
  - eapply IH; [|exact Hun]. apply new_Scalar_tracked; [done|discriminate].
  - destruct (arena w !! id) as [n|].
    + by eapply IH.
    + by injection Hun as _ <-.
Qed.

Lemma apply_tracked cls vals w r w' :
  (∀ inps c ctx, forward cls (Context_new false) inps = Ok (c, ctx) →
                 tracking ctx = true) →
  tracked w → ScalarFunction.apply cls vals w = (r, w') → tracked w'.
Proof.
  intros Hcls Hw. unfold ScalarFunction.apply, ScalarFunction._forward.
  destruct (ScalarFunction.unpack vals [] [] w) as [[[raw_vals scalars]|e] w1] eqn:Hun;
    [|intros [= _ <-]; by eapply unpack_tracked].
  pose proof (unpack_tracked _ _ _ _ _ _ Hw Hun) as Hw1.
  destruct (forward cls (Context_new false) raw_vals) as [[c ctx]|e] eqn:Hf;
    [|by intros [= _ <-]].
  destruct c as [c|n|xs]; try by intros [= _ <-].
  intros [= _ <-]. apply new_Scalar_tracked; [done|].
  intros h [= <-]. simpl. by eapply Hcls.
Qed.

Lemma process_history_of id buffer w r w' :
  autodiff.process id buffer w = (r, w') →
  ∀ i, history_of w' i = history_of w i.
Proof.
  unfold autodiff.process. intros Hp i.
  destruct (buffer !! id) as [d|]; [|by injection Hp as _ <-].
  destruct (arena w !! id) as [v|] eqn:Hv; [|by injection Hp as _ <-].
  destruct (history v) as [h|] eqn:Hh.
  - destruct (autodiff.chain_rule h d); by injection Hp as _ <-.
  - injection Hp as _ <-. unfold history_of. simpl.
    destruct (decide (i = id)) as [->|Hne].
    + rewrite lookup_insert_eq, Hv. simpl. by rewrite Hh.
    + by rewrite lookup_insert_ne.
Qed.

Lemma propagate_history_of order : ∀ buffer w r w',
  autodiff.propagate order buffer w = (r, w') →
  ∀ i, history_of w' i = history_of w i.
Proof.
  induction order as [|id order IH]; intros buffer w r w' Hp i; simpl in Hp.
  - by injection Hp as _ <-.
  - destruct (autodiff.process id buffer w) as [[buffer'|e] w1] eqn:H1.
    + rewrite (IH _ _ _ _ Hp). by eapply process_history_of.
    + injection Hp as _ <-. by eapply process_history_of.
Qed.

Lemma catalogue_tracking `{Operators} :
  Forall (λ cls, ∀ inps c ctx,
            forward cls (Context_new false) inps = Ok (c, ctx) →
            tracking ctx = true) catalogue.
Proof.
  unfold catalogue.
  repeat (apply Forall_cons_2); [..|apply Forall_nil_2];
    intros inps c ctx Hf; simpl in Hf;
    unfold Add.forward, Log.forward, Mul.forward, Inv.forward, Neg.forward,
      Sigmoid.forward, ReLU.forward, Exp.forward, GT.forward, LT.forward,
      EQ.forward in Hf;
    crunch_call; reflexivity.
Qed.

Lemma savers_retain `{Operators} :
  Forall (λ cls, ∀ inps c ctx,
            forward cls (Context_new false) inps = Ok (c, ctx) →
            ctx = {| no_grad := false; saved_values := inps |}) savers.
Proof.
  unfold savers.
  repeat (apply Forall_cons_2); [..|apply Forall_nil_2];
    intros inps c ctx Hf; simpl in Hf;
    unfold Log.forward, Mul.forward, Inv.forward, Neg.forward,
      Sigmoid.forward, ReLU.forward, Exp.forward, GT.forward, LT.forward,
      EQ.forward in Hf;
    crunch_call; reflexivity.
Qed.

(** C8: the context [apply] creates has gradient tracking on, and on such a
    context [save_for_backward] retains exactly the values it is given (it
    does nothing only when tracking is off).  The
    node [apply] returns carries the context its forward call ran with; for
    every operation of the catalogue that context still has tracking on and,
    when the operation saves its operands, holds them for the backward call.
    Tracking of every history is an invariant of the worlds built by [apply]
    from the catalogue and is kept by the backward pass, which hands to
    [_backward] the contexts of the histories only. *)
Theorem apply_tracks_gradients :
  tracking (Context_new false) = true ∧
  (∀ ctx values,
     tracking ctx = true →
     save_for_backward ctx values = {| no_grad := false; saved_values := values |}) ∧
  (∀ ctx values, tracking ctx = false → save_for_backward ctx values = ctx) ∧
  (∀ cls vals w id w',
     ScalarFunction.apply cls vals w = (Ok id, w') →
     ∃ h raw_vals c,
       history_of w' id = Some h ∧ last_fn h = cls ∧
       forward cls (Context_new false) raw_vals = Ok (VFloat c, fn_ctx h)) ∧
  (∀ O : Operators,
     Forall (λ cls, ∀ inps c ctx,
               forward cls (Context_new false) inps = Ok (c, ctx) →
               tracking ctx = true) (@catalogue O) ∧
     Forall (λ cls, ∀ inps c ctx,
               forward cls (Context_new false) inps = Ok (c, ctx) →
               ctx = {| no_grad := false; saved_values := inps |}) (@savers O) ∧
     Forall (λ cls, ∀ vals w r w',
               tracked w → ScalarFunction.apply cls vals w = (r, w') → tracked w')
       (@catalogue O)) ∧
  tracked empty_world ∧
  (∀ v w, tracked w → tracked (new_Scalar v None w).2) ∧
  (∀ root deriv w r w',
     tracked w → autodiff.backpropagate root deriv w = (r, w') → tracked w').
Proof.
  split; [reflexivity|]. split.
  { intros [ng saved] values. unfold tracking, save_for_backward. simpl.
    by intros ->%negb_true_iff. }
  split.
  { intros [ng saved] values. unfold tracking, save_for_backward. simpl.
    by intros ->%negb_false_iff. }
  split.
  { intros cls vals w id w'.
    unfold ScalarFunction.apply, ScalarFunction._forward.
    destruct (ScalarFunction.unpack vals [] [] w) as [[[raw_vals scalars]|e] w1];
      [|discriminate].
    destruct (forward cls (Context_new false) raw_vals) as [[c ctx]|e] eqn:Hf;
      [|discriminate].
    destruct c as [c|n|xs]; try discriminate.
    intros [= <- <-]. eexists _, raw_vals, c. unfold history_of.
    simpl. rewrite lookup_insert_eq. simpl.
    split; [reflexivity|]. split; [reflexivity|]. exact Hf. }
  split.
  { intros O. split; [apply catalogue_tracking|]. split; [apply savers_retain|].
    eapply Forall_impl; [apply catalogue_tracking|]. simpl.
    intros cls Hcls vals w r w' Hw Happ. by eapply apply_tracked. }
  split.
  { intros id h. unfold history_of. simpl. by rewrite lookup_empty. }
  split.
  { intros v w Hw. apply new_Scalar_tracked; [done|discriminate]. }
  intros root deriv w r w' Hw Hb id h.
  unfold autodiff.backpropagate in Hb.
  rewrite (propagate_history_of _ _ _ _ _ Hb). apply Hw.
Qed.

Lemma apply_tracks_gradients_witness :
  ∃ h raw_vals c,
    history_of
      (ScalarFunction.apply Mul.cls [Raw 2%float; Raw 3%float] empty_world).2 3
    = Some h ∧
    last_fn h = Mul.cls ∧
    forward Mul.cls (Context_new false) raw_vals = Ok (VFloat c, fn_ctx h).
Proof.
  apply (proj1 (proj2 (proj2 (proj2 apply_tracks_gradients))) Mul.cls
           [Raw 2%float; Raw 3%float] empty_world 3).
  reflexivity.
Defined.

(** ** Discovery and ordering *)

Lemma wf_operands w c h p :
  wf w → history_of w c = Some h → p ∈ inputs h →
  p < c ∧ is_Some (arena w !! p).
Proof.
  intros Hwf Hh Hp. unfold history_of in Hh.
  destruct (arena w !! c) as [v|] eqn:Hv; [|done]. simpl in Hh.
  destruct (Hwf c v Hv) as (_ & _ & Hops).
  specialize (Hops h Hh). rewrite Forall_forall in Hops. by apply Hops.
Qed.


Lemma reach_fuel w : wf w →
  ∀ fuel1 fuel2 id, id < fuel1 → id < fuel2 →
    autodiff.reach fuel1 w id = autodiff.reach fuel2 w id.
Proof.
  intros Hwf. induction fuel1 as [|fuel1 IH]; intros fuel2 id H1 H2; [lia|].
  destruct fuel2 as [|fuel2]; [lia|]. simpl.
  destruct (arena w !! id) as [v|] eqn:Hv; [|done].
  destruct (history v) as [h|] eqn:Hh; [|done].
  f_equal. f_equal. apply list_fmap_ext. intros i p Hp.
  assert (p < id) as Hlt.
  { eapply (wf_operands w id h p); [done| |].
    - unfold history_of. by rewrite Hv.
    - by eapply list_elem_of_lookup_2. }
  apply IH; lia.
Qed.








#[local] Instance flip_le_total : Total (flip Nat.le).
Proof. intros x y. unfold flip. lia. Qed.

#[local] Instance flip_le_trans : Transitive (flip Nat.le).
Proof. intros x y z. unfold flip. lia. Qed.

#[local] Instance flip_le_antisymm : AntiSymm (=) (flip Nat.le).
Proof. intros x y. unfold flip. lia. Qed.


(** ** Propagation *)




(** The chain rule pairs every operand with an entry, in call order. *)
Lemma chain_rule_aligned h d entries :
  autodiff.chain_rule h d = Ok entries → entries.*1 = inputs h.
Proof.
  unfold autodiff.chain_rule.
  destruct (ScalarFunction._backward _ _ _) as [t|e]; [|done]. simpl.
  destruct (autodiff.local_derivatives t) as [ds|e]; [|done]. simpl.
  case_decide as Hlen; [|done].
  intros [= <-]. by apply fst_zip; rewrite Hlen.
Qed.

(** A backward result with too few entries stops the pass: for the
    operation of two operands whose [backward] returns a single derivative,
    applied to two leaves, the pass raises and no leaf accumulates
    anything. *)
Lemma lopsided_pass_raises :
  let '(a, w1) := new_Scalar 2%float None empty_world in
  let '(b, w2) := new_Scalar 3%float None w1 in
  ∃ y w3 w4,
    ScalarFunction.apply Faulty.lopsided [Node a; Node b] w2 = (Ok y, w3) ∧
    autodiff.backpropagate y 1%float w3 = (Raise ArityMismatch, w4) ∧
    grad w4 a = None ∧ grad w4 b = None.
Proof.
  simpl. eexists _, _, _.
  split; [reflexivity|]. split; [vm_compute; reflexivity|].
  split; vm_compute; reflexivity.
Qed.










(** ** A node applied twice to the same leaf *)




(** ** Shared operands *)




(** * Further properties of the dispatch layer and of the catalogue *)

(** ** What [apply] returns *)

(** The whole of [apply] in a well-formed world, for arguments that are raw
    numbers or existing nodes: the leaves are built first, then the outcome
    of [forward] decides. *)
Lemma apply_spec cls vals w raws :
  wf w →
  Forall2 (λ v x, raw_of w v = Some x) vals raws →
  ∃ w1,
    wf w1 ∧
    var_count w1 = var_count w + count_raw vals ∧
    size (arena w1) = size (arena w) + count_raw vals ∧
    (∀ i n, arena w !! i = Some n → arena w1 !! i = Some n) ∧
    (∀ i n, arena w1 !! i = Some n → arena w !! i = Some n ∨ ∃ x, n = leaf i x) ∧
    Forall (λ p, is_Some (arena w1 !! p)) (operand_ids (var_count w) vals) ∧
    ScalarFunction.apply cls vals w
    = match forward cls (Context_new false) raws with
      | Raise e => (Raise e, w1)
      | Ok (VFloat c, ctx) =>
          (Ok (S (var_count w1)),
           (new_Scalar c
              (Some {| last_fn := cls; fn_ctx := ctx;
                       inputs := operand_ids (var_count w) vals |}) w1).2)
      | Ok (_, _) => (Raise AssertionError, w1)
      end.
Proof.
  intros Hwf Hraws.
  destruct (unpack_spec vals raws [] [] w Hwf Hraws)
    as (w1 & Hun & Hwf1 & Hcnt & Hsub & Honly & Hsize & Hops).
  simpl in Hun. exists w1.
  split; [done|]. split; [done|]. split; [done|]. split; [done|].
  split.
  { intros i n Hi. destruct (Honly i n Hi) as [?|[_ ?]]; auto. }
  split; [by eapply operands_exist|].
  unfold ScalarFunction.apply, ScalarFunction._forward. rewrite Hun.
  destruct (forward cls (Context_new false) raws) as [[[c|z|xs] ctx]|e]; done.
Qed.

(** X1: an exception raised by [forward] passes through [apply] unchanged.
    By then the raw arguments have been wrapped: the world holds these
    leaves, and the counter has moved past them, but no computed node was
    built and no existing node has changed. *)
Theorem apply_propagates_forward_error cls vals w raws e :
  wf w →
  Forall2 (λ v x, raw_of w v = Some x) vals raws →
  forward cls (Context_new false) raws = Raise e →
  ∃ w1,
    ScalarFunction.apply cls vals w = (Raise e, w1) ∧
    var_count w1 = var_count w + count_raw vals ∧
    size (arena w1) = size (arena w) + count_raw vals ∧
    (∀ i n, arena w !! i = Some n → arena w1 !! i = Some n) ∧
    (∀ i n, arena w1 !! i = Some n → arena w !! i = Some n ∨ ∃ x, n = leaf i x).
Proof.
  intros Hwf Hraws Hf.
  destruct (apply_spec cls vals w raws Hwf Hraws)
    as (w1 & _ & Hcnt & Hsize & Hsub & Honly & _ & Happ).
  rewrite Hf in Happ. by exists w1.
Qed.

Lemma apply_propagates_forward_error_witness :
  ∃ w1,
    ScalarFunction.apply Add.cls [Raw 1%float] empty_world = (Raise TypeError, w1) ∧
    var_count w1 = var_count empty_world + count_raw [Raw 1%float] ∧
    size (arena w1) = size (arena empty_world) + count_raw [Raw 1%float] ∧
    (∀ i n, arena empty_world !! i = Some n → arena w1 !! i = Some n) ∧
    (∀ i n, arena w1 !! i = Some n →
            arena empty_world !! i = Some n ∨ ∃ x, n = leaf i x).
Proof.
  apply (apply_propagates_forward_error Add.cls [Raw 1%float] empty_world
           [1%float] TypeError).
  - apply wf_empty.
  - repeat constructor.
  - reflexivity.
Defined.

(** ** What [apply] leaves untouched *)

Lemma unpack_keeps vals : ∀ raw0 sc0 w r w1,
  wf w →
  Forall (λ p, is_Some (arena w !! p)) sc0 →
  ScalarFunction.unpack vals raw0 sc0 w = (r, w1) →
  wf w1 ∧
  (∀ i n, arena w !! i = Some n → arena w1 !! i = Some n) ∧
  var_count w ≤ var_count w1 ∧
  match r with
  | Ok (_, scalars) => Forall (λ p, is_Some (arena w1 !! p)) scalars
  | Raise _ => True
  end.
Proof.
  induction vals as [|[x|id] vals IH]; intros raw0 sc0 w r w1 Hwf Hsc Hun;
    simpl in Hun.
  - injection Hun as <- <-. auto.
  - set (w' := (new_Scalar x None w).2) in *.
    assert (Hsub : ∀ i n, arena w !! i = Some n → arena w' !! i = Some n)
      by (intros i n Hi; by apply new_Scalar_preserves).
    destruct (IH (raw0 ++ [x]) (sc0 ++ [S (var_count w)]) w' r w1)
      as (Hwf1 & Hsub1 & Hle & Hr); [| |exact Hun|].
    + apply new_Scalar_wf; [done|discriminate].
    + apply Forall_app. split.
      * eapply Forall_impl; [exact Hsc|]. simpl. intros p [n Hn]. eauto.
      * constructor; [|constructor]. unfold w'. simpl.
        rewrite lookup_insert_eq. eauto.
    + split; [done|]. split; [auto|]. split; [|done].
      unfold w' in Hle. simpl in Hle. lia.
  - destruct (arena w !! id) as [n|] eqn:Hn.
    + eapply IH; [done| |exact Hun].
      apply Forall_app. split; [done|]. constructor; [eauto|constructor].
    + injection Hun as <- <-. auto.
Qed.

(** X2: whatever it returns or raises, [apply] only adds nodes.  In a
    well-formed world every node that existed is still there, unchanged (its
    accumulated derivative included), the counter has not moved back and the
    world is well-formed again; this holds for every operation and all
    arguments. *)
Theorem apply_keeps_world cls vals w r w' :
  wf w →
  ScalarFunction.apply cls vals w = (r, w') →
  wf w' ∧
  (∀ i n, arena w !! i = Some n → arena w' !! i = Some n) ∧
  var_count w ≤ var_count w'.
Proof.
  intros Hwf. unfold ScalarFunction.apply, ScalarFunction._forward.
  destruct (ScalarFunction.unpack vals [] [] w) as [ru w1] eqn:Hun.
  destruct (unpack_keeps vals [] [] w ru w1 Hwf (Forall_nil_2 _) Hun)
    as (Hwf1 & Hsub & Hle & Hsc).
  destruct ru as [[raw_vals scalars]|e]; [|by intros [= <- <-]].
  destruct (forward cls (Context_new false) raw_vals) as [[c ctx]|e];
    [|by intros [= <- <-]].
  destruct c as [c|z|xs]; try by intros [= <- <-].
  intros [= <- <-]. split.
  - apply new_Scalar_wf; [done|]. by intros h [= <-].
  - split; [|simpl; lia].
    intros i n Hi. apply new_Scalar_preserves; auto.
Qed.

Lemma apply_keeps_world_witness :
  let w := {| var_count := 1;
              arena := {[ 1 := {| unique_id := 1; data := 3%float;
                                  history := None;
                                  derivative := Some 6%float |} ]} |} in
  ScalarFunction.apply Mul.cls [Node 1; Raw 2%float] w
  = (Ok 3, (ScalarFunction.apply Mul.cls [Node 1; Raw 2%float] w).2) ∧
  arena (ScalarFunction.apply Mul.cls [Node 1; Raw 2%float] w).2 !! 1
  = Some {| unique_id := 1; data := 3%float; history := None;
            derivative := Some 6%float |} ∧
  wf (ScalarFunction.apply Mul.cls [Node 1; Raw 2%float] w).2 ∧
  (∀ i n, arena w !! i = Some n →
          arena (ScalarFunction.apply Mul.cls [Node 1; Raw 2%float] w).2 !! i
          = Some n) ∧
  var_count w ≤ var_count (ScalarFunction.apply Mul.cls [Node 1; Raw 2%float] w).2.
Proof.
  intros w. split; [reflexivity|]. split; [reflexivity|].
  apply (apply_keeps_world Mul.cls [Node 1; Raw 2%float] w (Ok 3)).
  - intros id v Hv. unfold w in Hv. simpl in Hv.
    apply lookup_singleton_Some in Hv as [<- <-]. simpl.
    split; [lia|]. split; [reflexivity|]. discriminate.
  - reflexivity.
Defined.

(** ** Operands of the catalogue *)

Ltac unfold_catalogue_in H :=
  unfold Add.forward, Add.backward, Log.forward, Log.backward,
    Mul.forward, Mul.backward, Inv.forward, Inv.backward,
    Neg.forward, Neg.backward, Sigmoid.forward, Sigmoid.backward,
    ReLU.forward, ReLU.backward, Exp.forward, Exp.backward,
    GT.forward, GT.backward, LT.forward, LT.backward,
    EQ.forward, EQ.backward in H.

Ltac unfold_catalogue :=
  unfold Add.forward, Add.backward, Log.forward, Log.backward,
    Mul.forward, Mul.backward, Inv.forward, Inv.backward,
    Neg.forward, Neg.backward, Sigmoid.forward, Sigmoid.backward,
    ReLU.forward, ReLU.backward, Exp.forward, Exp.backward,
    GT.forward, GT.backward, LT.forward, LT.backward,
    EQ.forward, EQ.backward.

Lemma catalogue_arity_error `{Operators} :
  Forall (λ p : ScalarFunction * nat,
            ∀ ctx inps, length inps ≠ p.2 → forward p.1 ctx inps = Raise TypeError)
    arities.
Proof.
  unfold arities.
  repeat (apply Forall_cons_2); [..|apply Forall_nil_2];
    intros ctx inps Hlen; simpl in *; unfold_catalogue;
    destruct inps as [|a [|b [|c inps]]]; simpl in *; done.
Qed.

(** X3: every [forward] of the catalogue raises [TypeError] when it is
    handed another number of operands than its signature names (two for
    [Add], [Mul], [GT], [LT], [EQ], one for the others), whatever the
    context, before it saves or computes anything; [apply] called with such
    a list of arguments raises [TypeError] and builds no computed node. *)
Theorem catalogue_checks_arity :
  ∀ O : Operators,
    Forall (λ p : ScalarFunction * nat,
              (∀ ctx inps, length inps ≠ p.2 →
                           forward p.1 ctx inps = Raise TypeError) ∧
              (∀ vals w raws,
                 wf w →
                 Forall2 (λ v x, raw_of w v = Some x) vals raws →
                 length vals ≠ p.2 →
                 ∃ w1, ScalarFunction.apply p.1 vals w = (Raise TypeError, w1) ∧
                       size (arena w1) = size (arena w) + count_raw vals))
      (@arities O).
Proof.
  intros O. eapply Forall_impl; [apply catalogue_arity_error|]. simpl.
  intros [cls k] Hf. simpl in *. split; [done|].
  intros vals w raws Hwf Hraws Hlen.
  destruct (apply_spec cls vals w raws Hwf Hraws)
    as (w1 & _ & _ & Hsize & _ & _ & _ & Happ).
  rewrite Hf in Happ; [by exists w1|].
  apply Forall2_length in Hraws. congruence.
Qed.

Lemma catalogue_checks_arity_witness :
  ∃ w1, ScalarFunction.apply Mul.cls [Raw 1%float; Raw 2%float; Raw 3%float]
          empty_world = (Raise TypeError, w1) ∧
        size (arena w1)
        = size (arena empty_world)
          + count_raw [Raw 1%float; Raw 2%float; Raw 3%float].
Proof.
  pose proof (catalogue_checks_arity no_transcendentals) as Hall.
  rewrite Forall_lookup in Hall.
  apply (proj2 (Hall 2 (Mul.cls, 2) eq_refl)
           [Raw 1%float; Raw 2%float; Raw 3%float] empty_world
           [1%float; 2%float; 3%float]).
  - apply wf_empty.
  - repeat constructor.
  - simpl. lia.
Defined.

Lemma catalogue_returns_floats `{Operators} :
  Forall (λ cls, ∀ ctx inps c ctx',
            forward cls ctx inps = Ok (c, ctx') → isinstance_float c = true)
    catalogue.
Proof.
  unfold catalogue.
  repeat (apply Forall_cons_2); [..|apply Forall_nil_2];
    intros ctx inps c ctx' Hf; simpl in Hf; unfold_catalogue_in Hf;
    crunch_call; reflexivity.
Qed.

(** X4: on float operands (raw floats and nodes, whose payload is a float)
    the assertion of [apply] never fires for an operation of the catalogue:
    whenever its [forward] returns on them, the result is a float, and
    [apply] returns a node that holds it.  Raw Python ints are not covered:
    on them [Add.forward] and [Mul.forward] return an int. *)
Theorem catalogue_passes_contract :
  ∀ O : Operators,
    Forall (λ cls, ∀ vals w raws c ctx,
              wf w →
              Forall2 (λ v x, raw_of w v = Some x) vals raws →
              forward cls (Context_new false) raws = Ok (c, ctx) →
              ∃ id w' x,
                c = VFloat x ∧
                ScalarFunction.apply cls vals w = (Ok id, w') ∧
                data <$> arena w' !! id = Some x)
      (@catalogue O).
Proof.
  intros O. eapply Forall_impl; [apply catalogue_returns_floats|]. simpl.
  intros cls Hfloat vals w raws c ctx Hwf Hraws Hf.
  specialize (Hfloat _ _ _ _ Hf). destruct c as [x|z|xs]; try discriminate.
  destruct (apply_spec cls vals w raws Hwf Hraws)
    as (w1 & _ & _ & _ & _ & _ & _ & Happ).
  rewrite Hf in Happ. eexists _, _, x. split; [done|]. split; [exact Happ|].
  simpl. by rewrite lookup_insert_eq.
Qed.

Lemma catalogue_passes_contract_witness :
  ∃ id w' x,
    VFloat 5 = VFloat x ∧
    ScalarFunction.apply Add.cls [Raw 2%float; Raw 3%float] empty_world
    = (Ok id, w') ∧
    data <$> arena w' !! id = Some x.
Proof.
  pose proof (catalogue_passes_contract no_transcendentals) as Hall.
  rewrite Forall_lookup in Hall.
  apply (Hall 0 Add.cls eq_refl [Raw 2%float; Raw 3%float] empty_world
           [2%float; 3%float] (VFloat 5) (Context_new false)).
  - apply wf_empty.
  - repeat constructor.
  - reflexivity.
Defined.

(** X5: what a [forward] of the catalogue returns or raises does not depend
    on the context it is handed, and so not on whether gradient tracking is
    on: the context is only written to. *)
Theorem forward_ignores_context :
  ∀ O : Operators,
    Forall (λ cls, ∀ ctx1 ctx2 inps,
              outcome (forward cls ctx1 inps) = outcome (forward cls ctx2 inps))
      (@catalogue O).
Proof.
  intros O. unfold catalogue.
  repeat (apply Forall_cons_2); [..|apply Forall_nil_2];
    intros ctx1 ctx2 inps; simpl; unfold_catalogue;
    destruct inps as [|a [|b [|c inps]]]; simpl; try reflexivity.
  all: match goal with
       | |- context [mbind _ ?x] => destruct x; reflexivity
       end.
Qed.

(** ** From [forward] to [backward] *)

(** X6: the backward rules of [Exp] and [Sigmoid] recompute the forward
    value from the saved operand: when [forward] returned [r] on a fresh
    tracking context, [Exp.backward] returns [r * d] and [Sigmoid.backward]
    returns [r * (1 - r) * d] on the context it left, for every output
    derivative [d]; neither raises. *)
Theorem backward_reuses_forward_value :
  (∀ (O : Operators) a r ctx d,
     Exp.forward (Context_new false) [a] = Ok (VFloat r, ctx) →
     Exp.backward ctx d = Ok (VFloat (r * d)%float)) ∧
  (∀ (O : Operators) a r ctx d,
     Sigmoid.forward (Context_new false) [a] = Ok (VFloat r, ctx) →
     Sigmoid.backward ctx d = Ok (VFloat (r * (1 - r) * d)%float)).
Proof.
  split; intros O a r ctx d Hf.
  - unfold Exp.forward, Exp.backward, operators.exp in *. simpl in *.
    destruct (op_exp a) as [r'|e] eqn:Hr; simpl in Hf; [|done].
    injection Hf as -> <-. simpl. by rewrite Hr.
  - unfold Sigmoid.forward, Sigmoid.backward, operators.sigmoid in *.
    simpl in *.
    destruct (op_sigmoid a) as [r'|e] eqn:Hr; simpl in Hf; [|done].
    injection Hf as -> <-. simpl. by rewrite Hr.
Qed.

Lemma backward_reuses_forward_value_witness :
  @Exp.backward echo_primitives
    {| no_grad := false; saved_values := [2%float] |} 3%float
  = Ok (VFloat (2 * 3)%float).
Proof.
  apply (proj1 backward_reuses_forward_value echo_primitives 2%float 2%float).
  reflexivity.
Defined.

(** X7: the backward rules of [Log] and [Inv] evaluate their derivative
    helper at the very operand [forward] received: once [forward] returned
    on a fresh tracking context, [backward] on the context it left is
    [log_back(a, d)], respectively [inv_back(a, d)], and raises only what
    the helper raises.  [Neg.forward] always returns, and [Neg.backward]
    then returns [-1.0 * d] whatever the operand was. *)
Theorem backward_reads_forward_operand :
  (∀ (O : Operators) a c ctx d,
     Log.forward (Context_new false) [a] = Ok (c, ctx) →
     Log.backward ctx d
     = match op_log_back a d with
       | Ok r => Ok (VFloat r)
       | Raise e => Raise e
       end) ∧
  (∀ (O : Operators) a c ctx d,
     Inv.forward (Context_new false) [a] = Ok (c, ctx) →
     Inv.backward ctx d
     = match op_inv_back a d with
       | Ok r => Ok (VFloat r)
       | Raise e => Raise e
       end) ∧
  (∀ a d, ∃ ctx,
     Neg.forward (Context_new false) [a] = Ok (VFloat (- a)%float, ctx) ∧
     Neg.backward ctx d = Ok (VFloat (-1.0 * d)%float)).
Proof.
  split; [|split].
  - intros O a c ctx d Hf.
    unfold Log.forward, Log.backward, operators.log, operators.log_back in *.
    simpl in *. destruct (op_log a) as [r|e]; simpl in Hf; [|done].
    injection Hf as _ <-. simpl. by destruct (op_log_back a d).
  - intros O a c ctx d Hf.
    unfold Inv.forward, Inv.backward, operators.inv, operators.inv_back in *.
    simpl in *. destruct (op_inv a) as [r|e]; simpl in Hf; [|done].
    injection Hf as _ <-. simpl. by destruct (op_inv_back a d).
  - intros a d. eexists. split; reflexivity.
Qed.

Lemma backward_reads_forward_operand_witness :
  @Log.backward echo_primitives
    {| no_grad := false; saved_values := [2%float] |} 3%float
  = match @op_log_back echo_primitives 2%float 3%float with
    | Ok r => Ok (VFloat r)
    | Raise e => Raise e
    end.
Proof.
  apply (proj1 backward_reads_forward_operand echo_primitives 2%float
           (VFloat 2)).
  reflexivity.
Defined.

Lemma saved_count_error `{Operators} :
  Forall (λ p : ScalarFunction * nat,
            ∀ ctx d, length (saved_values ctx) ≠ p.2 →
                     backward p.1 ctx d = Raise ValueError)
    saved_counts.
Proof.
  unfold saved_counts.
  repeat (apply Forall_cons_2); [..|apply Forall_nil_2];
    intros [ng saved] d Hlen; simpl in *; unfold_catalogue; simpl;
    destruct saved as [|a [|b [|c saved]]]; simpl in *; done.
Qed.

(** X8: a backward rule that reads the saved values raises [ValueError]
    whenever the context holds another number of values than the rule
    unpacks (two for [Mul], one for [Log], [Inv], [Neg], [Sigmoid], [ReLU],
    [Exp]): too many as well as too few, for instance the context another
    operation filled; [_backward] raises it too. *)
Theorem backward_checks_saved_count :
  ∀ O : Operators,
    Forall (λ p : ScalarFunction * nat,
              ∀ ctx d, length (saved_values ctx) ≠ p.2 →
                       backward p.1 ctx d = Raise ValueError ∧
                       ScalarFunction._backward p.1 ctx d = Raise ValueError)
      (@saved_counts O).
Proof.
  intros O. eapply Forall_impl; [apply saved_count_error|]. simpl.
  intros [cls k] Hb ctx d Hlen. simpl in *.
  unfold ScalarFunction._backward. by rewrite Hb.
Qed.

Lemma backward_checks_saved_count_witness :
  backward Neg.cls {| no_grad := false; saved_values := [2%float; 3%float] |}
    1%float = Raise ValueError ∧
  ScalarFunction._backward Neg.cls
    {| no_grad := false; saved_values := [2%float; 3%float] |} 1%float
  = Raise ValueError.
Proof.
  pose proof (backward_checks_saved_count no_transcendentals) as Hall.
  rewrite Forall_lookup in Hall.
  apply (Hall 3 (Neg.cls, 1) eq_refl
           {| no_grad := false; saved_values := [2%float; 3%float] |} 1%float).
  simpl. lia.
Defined.

(** ** Histories built by [apply] *)

Lemma unpack_lengths vals : ∀ raw0 sc0 w raws scalars w1,
  ScalarFunction.unpack vals raw0 sc0 w = (Ok (raws, scalars), w1) →
  length raws = length raw0 + length vals ∧
  length scalars = length sc0 + length vals.
Proof.
  induction vals as [|[x|id] vals IH]; intros raw0 sc0 w raws scalars w1 Hun;
    simpl in Hun.
  - injection Hun as <- <- _. simpl. lia.
  - apply IH in Hun. rewrite !length_app in Hun. simpl in *. lia.
  - destruct (arena w !! id) as [n|]; [|done].
    apply IH in Hun. rewrite !length_app in Hun. simpl in *. lia.
Qed.

(** The node [apply] returns, read back from the world. *)
Lemma apply_inv cls vals w id w' :
  ScalarFunction.apply cls vals w = (Ok id, w') →
  ∃ raws scalars c ctx,
    length raws = length vals ∧ length scalars = length vals ∧
    forward cls (Context_new false) raws = Ok (VFloat c, ctx) ∧
    history_of w' id
    = Some {| last_fn := cls; fn_ctx := ctx; inputs := scalars |}.
Proof.
  unfold ScalarFunction.apply, ScalarFunction._forward.
  destruct (ScalarFunction.unpack vals [] [] w) as [[[raws scalars]|e] w1] eqn:Hun;
    [|discriminate].
  destruct (forward cls (Context_new false) raws) as [[c ctx]|e] eqn:Hf;
    [|discriminate].
  destruct c as [c|z|xs]; try discriminate.
  intros [= <- <-]. apply unpack_lengths in Hun as [Hr Hs]. simpl in *.
  exists raws, scalars, c, ctx. split; [done|]. split; [done|]. split; [done|].
  unfold history_of. simpl. by rewrite lookup_insert_eq.
Qed.

(** X9: in the history of a node built by [apply] from an operation of the
    catalogue, there is one recorded operand per argument of the call
    (repeated arguments are recorded at each position), and whenever
    [_backward] returns on the recorded context its tuple has exactly one
    entry per recorded operand. *)
Theorem apply_history_aligns :
  ∀ O : Operators,
    Forall (λ cls, ∀ vals w id w',
              ScalarFunction.apply cls vals w = (Ok id, w') →
              ∃ h, history_of w' id = Some h ∧
                   length (inputs h) = length vals ∧
                   ∀ d t, ScalarFunction._backward (last_fn h) (fn_ctx h) d = Ok t →
                          tuple_len t = Some (length (inputs h)))
      (@catalogue O).
Proof.
  intros O. eapply Forall_impl; [apply catalogue_arity|]. simpl.
  intros cls Harity vals w id w' Happ.
  apply apply_inv in Happ as (raws & scalars & c & ctx & Hr & Hs & Hf & Hh).
  eexists. split; [exact Hh|]. simpl. split; [done|].
  intros d t Hb. rewrite (Harity _ _ _ _ _ _ Hf Hb). congruence.
Qed.

Lemma apply_history_aligns_witness :
  ∃ h, history_of
         (ScalarFunction.apply Mul.cls [Raw 2%float; Raw 3%float] empty_world).2 3
       = Some h ∧
       length (inputs h) = length [Raw 2%float; Raw 3%float] ∧
       ∀ d t, ScalarFunction._backward (last_fn h) (fn_ctx h) d = Ok t →
              tuple_len t = Some (length (inputs h)).
Proof.
  pose proof (apply_history_aligns no_transcendentals) as Hall.
  rewrite Forall_lookup in Hall.
  apply (Hall 2 Mul.cls eq_refl [Raw 2%float; Raw 3%float] empty_world 3).
  reflexivity.
Defined.

(** X10: a node built by [apply] from [Add], [Mul], [Neg], [ReLU], [GT],
    [LT] or [EQ] can always be differentiated: on the recorded context
    [_backward] raises nothing and returns a tuple of floats, one per
    argument of the call, for every output derivative. *)
Theorem primitive_free_backward_returns :
  Forall (λ cls, ∀ vals w id w',
            ScalarFunction.apply cls vals w = (Ok id, w') →
            ∃ h, history_of w' id = Some h ∧
                 ∀ d, ∃ ds,
                   ScalarFunction._backward (last_fn h) (fn_ctx h) d
                   = Ok (VTuple (VFloat <$> ds)) ∧
                   length ds = length vals)
    primitive_free.
Proof.
  unfold primitive_free.
  repeat (apply Forall_cons_2); [..|apply Forall_nil_2];
    intros vals w id w' Happ;
    apply apply_inv in Happ as (raws & scalars & c & ctx & Hr & Hs & Hf & Hh);
    (eexists; split; [exact Hh|]); simpl; intros d;
    simpl in Hf; unfold_catalogue_in Hf;
    destruct raws as [|a [|b [|c' raws]]]; simpl in Hf; try discriminate;
    injection Hf as _ <-; unfold ScalarFunction._backward; simpl.
  - by exists [d; d].
  - by exists [(b * d)%float; (a * d)%float].
  - by exists [(-1.0 * d)%float].
  - by exists [operators.relu_back a d].
  - by exists [0%float; 0%float].
  - by exists [0%float; 0%float].
  - by exists [0%float; 0%float].
Qed.

Lemma primitive_free_backward_returns_witness :
  ∃ h, history_of
         (ScalarFunction.apply Neg.cls [Raw 2%float] empty_world).2 2
       = Some h ∧
       ∀ d, ∃ ds,
         ScalarFunction._backward (last_fn h) (fn_ctx h) d
         = Ok (VTuple (VFloat <$> ds)) ∧
         length ds = length [Raw 2%float].
Proof.
  pose proof primitive_free_backward_returns as Hall.
  rewrite Forall_lookup in Hall.
  apply (Hall 2 Neg.cls eq_refl [Raw 2%float] empty_world 2).
  reflexivity.
Defined.

(** ** Identifiers and arguments *)

(** X11: [apply] builds the leaves for its raw arguments in call order and
    the result node last: when [forward] returns a float, the result takes
    the identifier that follows the counter and the raw arguments, the
    counter stops there, the recorded operands are the existing nodes
    themselves and consecutive new identifiers for the raw numbers, and
    every recorded operand has a smaller identifier than the result. *)
Theorem apply_identifiers cls vals w raws c ctx :
  wf w →
  Forall2 (λ v x, raw_of w v = Some x) vals raws →
  forward cls (Context_new false) raws = Ok (VFloat c, ctx) →
  ∃ w',
    ScalarFunction.apply cls vals w = (Ok (S (var_count w + count_raw vals)), w') ∧
    var_count w' = S (var_count w + count_raw vals) ∧
    history_of w' (S (var_count w + count_raw vals))
    = Some {| last_fn := cls; fn_ctx := ctx;
              inputs := operand_ids (var_count w) vals |} ∧
    Forall (λ p, p < S (var_count w + count_raw vals))
      (operand_ids (var_count w) vals).
Proof.
  intros Hwf Hraws Hf.
  destruct (apply_spec cls vals w raws Hwf Hraws)
    as (w1 & Hwf1 & Hcnt & _ & _ & _ & Hex & Happ).
  rewrite Hf, Hcnt in Happ. eexists. split; [exact Happ|].
  simpl. split; [lia|]. split.
  - unfold history_of. simpl. rewrite Hcnt. by rewrite lookup_insert_eq.
  - eapply Forall_impl; [exact Hex|]. simpl. intros p [n Hn].
    apply Hwf1 in Hn as [Hle _]. lia.
Qed.

Lemma apply_identifiers_witness :
  ∃ w',
    ScalarFunction.apply Mul.cls [Raw 2%float; Node 1]
      (new_Scalar 3%float None empty_world).2 = (Ok 3, w') ∧
    var_count w' = 3 ∧
    history_of w' 3
    = Some {| last_fn := Mul.cls;
              fn_ctx := {| no_grad := false;
                           saved_values := [2%float; 3%float] |};
              inputs := [2; 1] |} ∧
    Forall (λ p, p < 3) [2; 1].
Proof.
  apply (apply_identifiers Mul.cls [Raw 2%float; Node 1]
           (new_Scalar 3%float None empty_world).2 [2%float; 3%float]
           6%float {| no_grad := false; saved_values := [2%float; 3%float] |}).
  - apply new_Scalar_wf; [apply wf_empty|discriminate].
  - repeat constructor.
  - reflexivity.
Defined.

(** X12: [apply] depends on its arguments only through their raw values: a
    raw number and an existing node that holds it are treated alike.  For
    two lists of arguments with the same raw values, position by position,
    the two calls raise the same exception, or both return a node, and then
    the two nodes hold the same value and their histories the same
    operation and the same context. *)
Theorem apply_depends_on_raw_values cls vals1 vals2 w :
  wf w →
  Forall2 (λ v1 v2, is_Some (raw_of w v1) ∧ raw_of w v1 = raw_of w v2)
    vals1 vals2 →
  match ScalarFunction.apply cls vals1 w, ScalarFunction.apply cls vals2 w with
  | (Ok id1, w1), (Ok id2, w2) =>
      data <$> arena w1 !! id1 = data <$> arena w2 !! id2 ∧
      is_Some (history_of w1 id1) ∧
      last_fn <$> history_of w1 id1 = last_fn <$> history_of w2 id2 ∧
      fn_ctx <$> history_of w1 id1 = fn_ctx <$> history_of w2 id2
  | (Raise e1, _), (Raise e2, _) => e1 = e2
  | _, _ => False
  end.
Proof.
  intros Hwf Hvals.
  assert (∃ raws, Forall2 (λ v x, raw_of w v = Some x) vals1 raws ∧
                  Forall2 (λ v x, raw_of w v = Some x) vals2 raws)
    as (raws & Hraws1 & Hraws2).
  { induction Hvals as [|v1 v2 vals1 vals2 [[x Hx] Heq] _ (raws & H1 & H2)].
    - exists []. split; constructor.
    - exists (x :: raws). split; constructor; congruence. }
  destruct (apply_spec cls vals1 w raws Hwf Hraws1)
    as (w1 & _ & _ & _ & _ & _ & _ & Happ1).
  destruct (apply_spec cls vals2 w raws Hwf Hraws2)
    as (w2 & _ & _ & _ & _ & _ & _ & Happ2).
  rewrite Happ1, Happ2.
  destruct (forward cls (Context_new false) raws) as [[[c|z|xs] ctx]|e];
    try done.
  unfold history_of. simpl. rewrite !lookup_insert_eq. simpl. eauto.
Qed.

Lemma apply_depends_on_raw_values_witness :
  match ScalarFunction.apply Mul.cls [Raw 3%float; Node 1]
          (new_Scalar 3%float None empty_world).2,
        ScalarFunction.apply Mul.cls [Node 1; Raw 3%float]
          (new_Scalar 3%float None empty_world).2 with
  | (Ok id1, w1), (Ok id2, w2) =>
      data <$> arena w1 !! id1 = data <$> arena w2 !! id2 ∧
      is_Some (history_of w1 id1) ∧
      last_fn <$> history_of w1 id1 = last_fn <$> history_of w2 id2 ∧
      fn_ctx <$> history_of w1 id1 = fn_ctx <$> history_of w2 id2
  | (Raise e1, _), (Raise e2, _) => e1 = e2
  | _, _ => False
  end.
Proof.
  apply (apply_depends_on_raw_values Mul.cls [Raw 3%float; Node 1]
           [Node 1; Raw 3%float] (new_Scalar 3%float None empty_world).2).
  - apply new_Scalar_wf; [apply wf_empty|discriminate].
  - repeat constructor; simpl; eauto.
Defined.
